(** * A distributed token bucket over Redis: model of [pkg/dtb/dtb.go]

    The bucket handle [DTB] talks to three things it does not own: the wall
    clock, the Redis client [rc] and the Go scheduler (sleeping, the ticker
    and the unbuffered channel [errors]).  The methods of [dtb.go] are
    written below as programs of a small command monad; the clock and the
    store answer through a handler that the theorems leave arbitrary, so
    that a statement "for every handler" covers every store content, every
    store failure and every interference by other processes.  The channel
    is part of the handle and has Go's semantics built into [interp].

    A run is a finite sequence of completed commands.  A command that never
    returns (a receive from a ticker that never fires, the pop that waits
    for a token) is a run that is not continued: the statements below are
    about the commands, the passes of the loops and the calls that a process
    gets to make. *)

From Stdlib Require Import Ascii.
From stdpp Require Import base numbers option list strings gmap pretty.

Local Open Scope Z_scope.

(** ** Go values used by the package *)

(** [int64] arithmetic wraps around. *)
Definition wrap64 (z : Z) : Z := (z + 2 ^ 63) `mod` 2 ^ 64 - 2 ^ 63.

Definition int64_mul (a b : Z) : Z := wrap64 (a * b).

(** [time.Duration]: an [int64] count of nanoseconds. *)
Definition Duration := Z.

Definition Second : Duration := 1000000000.

(** [time.Time]: an instant of the wall clock, in nanoseconds since the Unix
    epoch.  A [Time] keeps its seconds in an [int64] counted from year 1;
    the clock readings and what [Add] and [Unix()] make of them are far from
    its ends, the whole seconds that [time.Unix] is given come from the store
    and need not be. *)
Definition Time := Z.

(** [t.Add(d)] *)
Definition t_Add (t : Time) (d : Duration) : Time := t + d.

(** [t.Unix()]: the whole seconds since the epoch, rounded down. *)
Definition t_Unix (t : Time) : Z := t `div` Second.

(** The instant [sec] seconds and [nsec] nanoseconds after the epoch. *)
Definition unix_instant (sec nsec : Z) : Time := sec * Second + nsec.

(** [unixToInternal]: the seconds from the start of year 1, where a [Time]
    counts from, to the epoch. *)
Definition unixToInternal : Z := 62135596800.

(** [time.Unix(sec, nsec)]: [nsec] is brought into [0, 1e9) by carrying into
    [sec], and the [Time] keeps [sec + unixToInternal] in an [int64], which
    wraps around: from [sec = 2^63 - unixToInternal] on, the [Time] returned
    is [2^64] seconds before the instant asked for. *)
Definition time_Unix (sec nsec : Z) : Time :=
  unix_instant
    (wrap64 (sec + nsec `div` Second + unixToInternal) - unixToInternal)
    (nsec `mod` Second).

(** [t.Before(u)] and [t.After(u)] *)
Definition t_Before (t u : Time) : bool := bool_decide (t < u).
Definition t_After (t u : Time) : bool := bool_decide (u < t).

(** Non-nil [error] values: what the Redis client reports (a failed
    connection, a server error, or [redis.Nil] for a missing key) and the
    [strconv.NumError] of a failed conversion. *)
Inductive NumErr := ErrSyntax | ErrRange.

Inductive error :=
| RedisNil
| RedisError (msg : string)
| NumError (num : string) (why : NumErr).

(** A value of interface type [error]; [None] is [nil]. *)
Definition goerror := option error.

(** The pair (value, [error]) of a Redis reply or of a conversion, of which
    the code reads the value only after checking the error. *)
Inductive result (A : Type) :=
| Ok (a : A)
| Fail (e : error).
Arguments Ok {A} a.
Arguments Fail {A} e.

(** [strconv.ParseUint(s, 10, 64)] and [strconv.ParseInt(s, 10, 64)]: an
    optional sign, then at least one decimal digit and nothing else; the
    value must fit [int64].  The bytes are read in order, and the first one
    that is no digit (a syntax error) or that takes the number past
    [2^64 - 1] (a range error) decides the error. *)
Definition digit (c : ascii) : option Z :=
  let n := Z.of_nat (nat_of_ascii c) in
  if bool_decide (48 <= n <= 57) then Some (n - 48) else None.

Fixpoint digits (n : Z) (s : string) : Z + NumErr :=
  match s with
  | EmptyString => inl n
  | String c s' =>
      match digit c with
      | None => inr ErrSyntax
      | Some d =>
          (* n >= cutoff, with cutoff = maxUint64/10 + 1: n*10 overflows *)
          if bool_decide ((2 ^ 64 - 1) `div` 10 + 1 <= n) then inr ErrRange
          (* n*10 + d overflows *)
          else if bool_decide (2 ^ 64 - 1 < 10 * n + d) then inr ErrRange
          else digits (10 * n + d) s'
      end
  end.

Definition ParseUint (s : string) : Z + NumErr :=
  match s with
  | EmptyString => inr ErrSyntax
  | _ => digits 0 s
  end.

Definition ParseInt (s : string) : result Z :=
  match s with
  | EmptyString => Fail (NumError s ErrSyntax)
  | _ =>
      (* Pick off leading sign. *)
      let '(neg, body) :=
        match s with
        | String "+" s' => (false, s')
        | String "-" s' => (true, s')
        | _ => (false, s)
        end in
      (* Convert unsigned and check range. *)
      match ParseUint body with
      | inr ErrSyntax => Fail (NumError s ErrSyntax)
      | inr ErrRange => Fail (NumError s ErrRange)
      | inl un =>
          if negb neg && bool_decide (2 ^ 63 <= un) then Fail (NumError s ErrRange)
          else if neg && bool_decide (2 ^ 63 < un) then Fail (NumError s ErrRange)
          else Ok (if neg then - un else un)
      end
  end.

(** The method [Int64()] of [redis.StringCmd]: the command's error if it has one, else the
    conversion of its value. *)
Definition Int64 (cmd : result string) : result Z :=
  match cmd with
  | Fail e => Fail e
  | Ok s => ParseInt s
  end.

(** ** Commands to the clock, the scheduler and the Redis client *)

Inductive Cmd : Type -> Type :=
| Now : Cmd Time                                  (* time.Now() *)
| Sleep (d : Duration) : Cmd unit                 (* time.Sleep(d) *)
| Tick (d : Duration) : Cmd unit                  (* c := time.Tick(d) *)
| TickRecv : Cmd unit                             (* <-c *)
| rcSetNX (key : string) (value : Z) (expiration : Duration) : Cmd (result bool)
| rcGet (key : string) : Cmd (result string)
| rcGetSet (key : string) (value : Z) : Cmd (result string)
| rcSet (key : string) (value : Z) (expiration : Duration) : Cmd (result string)
| rcLLen (key : string) : Cmd (result Z)
| rcLPush (key : string) (values : list (option string)) : Cmd (result Z)
| rcBRPop (timeout : Duration) (keys : list string) : Cmd (result (list string)).

(** What an observer of the process sees: each command with its answer, and
    the two operations on the channel [errors].  An assignment to the
    process's own struct is not seen. *)
Inductive Event :=
| ENow (t : Time)
| ESleep (d : Duration)
| ETick (d : Duration)
| ETickRecv
| ESetNX (key : string) (value : Z) (expiration : Duration) (r : result bool)
| EGet (key : string) (r : result string)
| EGetSet (key : string) (value : Z) (r : result string)
| ESet (key : string) (value : Z) (expiration : Duration) (r : result string)
| ELLen (key : string) (r : result Z)
| ELPush (key : string) (values : list (option string)) (r : result Z)
| EBRPop (timeout : Duration) (keys : list string) (r : result (list string))
| ESend (e : goerror)
| ESelect (r : option goerror).

Definition event_of {X} (c : Cmd X) : X -> Event :=
  match c in Cmd X return X -> Event with
  | Now => ENow
  | Sleep d => fun _ => ESleep d
  | Tick d => fun _ => ETick d
  | TickRecv => fun _ => ETickRecv
  | rcSetNX k v x => ESetNX k v x
  | rcGet k => EGet k
  | rcGetSet k v => EGetSet k v
  | rcSet k v x => ESet k v x
  | rcLLen k => ELLen k
  | rcLPush k vs => ELPush k vs
  | rcBRPop t ks => EBRPop t ks
  end.

(** ** The bucket handle *)

(** The channel [errors] is unbuffered: its state is the queue of values
    offered by goroutines parked in a send.  A send parks its goroutine until
    a receiver takes the value; a receive under [select] with a [default]
    takes the oldest offered value if there is one and never waits. *)
Definition Chan := list goerror.

(** [type DTB struct]; [rc] is the handler the programs are run against. *)
Record DTB := mkDTB {
  bucketName : string;
  capacity : Z;
  cadence : Duration;
  errors : Chan;
}.

Definition with_errors (dtb : DTB) (ch : Chan) : DTB :=
  {| bucketName := bucketName dtb; capacity := capacity dtb;
     cadence := cadence dtb; errors := ch |}.

(** ** Programs

    The statements of a method with receiver [dtb *DTB]: a result, a command
    with the rest of the program waiting for its answer, a send on
    [dtb.errors], the non-blocking receive
    [select { case msg := <-dtb.errors: ...; default: ... }], or an
    assignment through the receiver, [dtb.f = v] or [*dtb = v], which makes
    the struct [upd] of what it was. *)
Inductive Prog (R : Type) : Type :=
| Ret (r : R)
| Do {X : Type} (c : Cmd X) (k : X -> Prog R)
| Send (e : goerror) (k : Prog R)
| Select (k : option goerror -> Prog R)
| Assign (upd : DTB -> DTB) (k : Prog R).
Arguments Ret {R} r.
Arguments Do {R X} c k.
Arguments Send {R} e k.
Arguments Select {R} k.
Arguments Assign {R} upd k.

Fixpoint bind {A B} (p : Prog A) (f : A -> Prog B) : Prog B :=
  match p with
  | Ret a => f a
  | Do c k => Do c (fun x => bind (k x) f)
  | Send e k => Send e (bind k f)
  | Select k => Select (fun r => bind (k r) f)
  | Assign upd k => Assign upd (bind k f)
  end.

Definition call {X} (c : Cmd X) : Prog X := Do c Ret.

Global Instance Prog_ret : MRet Prog := fun _ r => Ret r.
Global Instance Prog_bind : MBind Prog := fun _ _ f p => bind p f.

(** The clock and the store: any state, any answers. *)
Definition Handler (S : Type) := forall X, Cmd X -> S -> X * S.

(** Running a program on the handle [dtb]: the trace, the result, the handle
    and the environment afterwards. *)
Fixpoint interp {S R} (h : Handler S) (p : Prog R) (dtb : DTB) (s : S)
  : list Event * R * DTB * S :=
  match p with
  | Ret r => ([], r, dtb, s)
  | Do c k =>
      let '(x, s1) := h _ c s in
      let '(t, r, dtb', s') := interp h (k x) dtb s1 in
      (event_of c x :: t, r, dtb', s')
  | Send e k =>
      let '(t, r, dtb', s') := interp h k (with_errors dtb (errors dtb ++ [e])) s in
      (ESend e :: t, r, dtb', s')
  | Select k =>
      let '(msg, ch) :=
        match errors dtb with
        | [] => (None, [])
        | e :: ch => (Some e, ch)
        end in
      let '(t, r, dtb', s') := interp h (k msg) (with_errors dtb ch) s in
      (ESelect msg :: t, r, dtb', s')
  | Assign upd k => interp h k (upd dtb) s
  end.

(** Calling the method [m] on the handle [dtb]. *)
Definition invoke {S R} (h : Handler S) (m : DTB -> Prog R) (dtb : DTB) (s : S)
  : list Event * R * DTB * S :=
  interp h (m dtb) dtb s.

(** ** The methods of [dtb.go] *)

Definition lockKey (dtb : DTB) : string := bucketName dtb +:+ "_lock".

(** lockDuration defines the amount of time we shift our hold on the lock
    into the future: [time.Duration(2) * dtb.cadence]. *)
Definition lockDuration (dtb : DTB) : Duration := int64_mul 2 (cadence dtb).

(** The value [now.Add(dtb.lockDuration()).Unix()] that [acquireLock] and the
    renewal in [fill] write under the lock key. *)
Definition lockVal (dtb : DTB) (now : Time) : Z :=
  t_Unix (t_Add now (lockDuration dtb)).

(** [acquireLock] returns a pointer to [int64] and an [error]; the pointer is
    [None] for [nil]. *)
Definition acquireLock (dtb : DTB) : Prog (option Z * goerror) :=
  now ← call Now;
  let lockVal := t_Unix (t_Add now (lockDuration dtb)) in
  let lockKey := lockKey dtb in
  acquired ← call (rcSetNX lockKey lockVal 0);
  match acquired with
  | Fail e => Ret (None, Some e)
  | Ok true => Ret (Some lockVal, None)
  | Ok false =>
      (* We weren't able to acquire the lock *)
      got ← call (rcGet lockKey);
      match Int64 got with
      | Fail e => Ret (None, Some e)
      | Ok lockUnix =>
          (* if the lock is expired *)
          if t_Before (time_Unix lockUnix 0) now then
            (* set the lock and get what was stored there *)
            val ← call (rcGetSet lockKey lockVal);
            match val with
            | Fail e => Ret (None, Some e)
            | Ok _ =>
                match Int64 val with
                | Fail e => Ret (None, Some e)
                | Ok i =>
                    if t_After (time_Unix i 0) now
                    then Ret (None, None)          (* someone else still has the lock *)
                    else Ret (Some lockVal, None)  (* it is now expired *)
                end
            end
          else Ret (None, None)                    (* someone else has the lock *)
      end
  end.

(** The [nil] that [LPush(dtb.bucketName, nil)] pushes: a token has no
    payload. *)
Definition placeholder : option string := None.

(** Where the goroutine running [fill] stands: in the first loop ([lockID]
    still [nil]), in the tick loop, or at a [dtb.errors <- err; return],
    parked in the send until a caller takes the error and returned after
    that. *)
Inductive FillState :=
| Acquiring
| Active (lockID : Z)
| Stopped.

(** One pass through the body of [for lockID == nil { ... }].  When the loop
    is left, the init statement [c := time.Tick(dtb.cadence)] of the next
    loop runs. *)
Definition acquireIter (dtb : DTB) : Prog FillState :=
  call (Sleep (cadence dtb));;
  '(lockID, err) ← acquireLock dtb;
  match err with
  | Some e => Send (Some e) (Ret Stopped)
  | None =>
      match lockID with
      | None => Ret Acquiring
      | Some id => call (Tick (cadence dtb));; Ret (Active id)
      end
  end.

(** One pass through [for c := ...; ; <-c { ... }]: the body, then the post
    statement [<-c]. *)
Definition tickIter (dtb : DTB) (lockID : Z) : Prog FillState :=
  tokensInBucket ← call (rcLLen (bucketName dtb));
  match tokensInBucket with
  | Fail e => Send (Some e) (Ret Stopped)
  | Ok n =>
      let renew :=
        (* update the lock to sometime further in the future so we retain it *)
        now ← call Now;
        call (rcSet (lockKey dtb) (t_Unix (t_Add now (lockDuration dtb))) 0);;
        call TickRecv;;
        Ret (Active lockID) in
      if bool_decide (n < capacity dtb) then
        val ← call (rcLPush (bucketName dtb) [placeholder]);
        match val with
        | Fail e => Send (Some e) (Ret Stopped)
        | Ok _ => renew
        end
      else renew
  end.

Definition fillStep (dtb : DTB) (st : FillState) : Prog FillState :=
  match st with
  | Acquiring => acquireIter dtb
  | Active lockID => tickIter dtb lockID
  | Stopped => Ret Stopped
  end.

(** [GetToken] returns [error]. *)
Definition GetToken (dtb : DTB) : Prog goerror :=
  (* Check for errors *)
  msg ← Select Ret;
  let err := match msg with Some m => m | None => None end in
  match err with
  | Some e => Ret (Some e)
  | None =>
      (* Pop a token waiting until the sun begins to cool *)
      call (rcBRPop 0 [bucketName dtb]);;
      Ret None
  end.

(** [fill] for at most [n] passes through its loops, starting from [st]. *)
Fixpoint fillRun {S} (h : Handler S) (n : nat) (st : FillState) (dtb : DTB) (s : S)
  : list Event * FillState * DTB * S :=
  match n with
  | O => ([], st, dtb, s)
  | Datatypes.S n' =>
      let '(t1, st1, dtb1, s1) := invoke h (fun d => fillStep d st) dtb s in
      let '(t2, st2, dtb2, s2) := fillRun h n' st1 dtb1 s1 in
      (t1 ++ t2, st2, dtb2, s2)
  end.

(** [fill] as [NewDTB] starts it. *)
Definition fill {S} (h : Handler S) (n : nat) := fillRun h n Acquiring.

(** ** The process: a handle, its [fill] goroutine and its callers *)

Record Process := mkProcess {
  self : DTB;
  goroutine : FillState;
}.

(** [NewDTB]: the channel is made empty and [go dtb.fill()] is started. *)
Definition NewDTB (bucketName : string) (capacity : Z) (cadence : Duration) : Process :=
  {| self := {| bucketName := bucketName; capacity := capacity;
                cadence := cadence; errors := [] |};
     goroutine := Acquiring |}.

(** What happens next in the process: the goroutine makes one pass of its
    loop, or some caller runs [GetToken]. *)
Inductive Action := StepFill | CallGetToken.

(** The results of the [GetToken] calls are collected with the trace. *)
Definition act {S} (h : Handler S) (a : Action) (p : Process) (s : S)
  : list Event * list goerror * Process * S :=
  match a with
  | StepFill =>
      let '(t, st, dtb, s') := invoke h (fun d => fillStep d (goroutine p)) (self p) s in
      (t, [], {| self := dtb; goroutine := st |}, s')
  | CallGetToken =>
      let '(t, r, dtb, s') := invoke h GetToken (self p) s in
      (t, [r], {| self := dtb; goroutine := goroutine p |}, s')
  end.

Fixpoint schedule {S} (h : Handler S) (acts : list Action) (p : Process) (s : S)
  : list Event * list goerror * Process * S :=
  match acts with
  | [] => ([], [], p, s)
  | a :: acts' =>
      let '(t1, r1, p1, s1) := act h a p s in
      let '(t2, r2, p2, s2) := schedule h acts' p1 s1 in
      (t1 ++ t2, r1 ++ r2, p2, s2)
  end.

(** ** A Redis server in memory

    One concrete environment, for running the programs: a clock that moves
    when the process sleeps or waits for the ticker, string keys, lists, and
    a connection with a script of outages: the next Redis command fails when
    the head of [outages] is [true], and an empty script means no failure. *)
Module Memory.

Record Env := mkEnv {
  clock : Time;
  period : Duration;
  strs : gmap string string;
  lists : gmap string (list string);
  outages : list bool;
}.

Definition refused : error := RedisError "connection refused".

Definition tick (e : Env) (d : Duration) : Env :=
  {| clock := clock e + Z.max 0 d; period := period e; strs := strs e;
     lists := lists e; outages := outages e |}.

Definition down (e : Env) : bool := default false (head (outages e)).

Definition next (e : Env) : Env :=
  {| clock := clock e; period := period e; strs := strs e; lists := lists e;
     outages := tail (outages e) |}.

Definition store (e : Env) (m : gmap string string) (l : gmap string (list string)) : Env :=
  {| clock := clock e; period := period e; strs := m; lists := l;
     outages := tail (outages e) |}.

Definition serve : Handler Env := fun X c =>
  match c in Cmd X return Env -> X * Env with
  | Now => fun e => (clock e, e)
  | Sleep d => fun e => ((), tick e d)
  | Tick d => fun e =>
      ((), {| clock := clock e; period := d; strs := strs e;
              lists := lists e; outages := outages e |})
  | TickRecv => fun e => ((), tick e (period e))
  | rcSetNX k v _ => fun e =>
      if down e then (Fail refused, next e) else
      match strs e !! k with
      | Some _ => (Ok false, store e (strs e) (lists e))
      | None => (Ok true, store e (<[k := pretty v]> (strs e)) (lists e))
      end
  | rcGet k => fun e =>
      if down e then (Fail refused, next e) else
      (match strs e !! k with Some v => Ok v | None => Fail RedisNil end,
       store e (strs e) (lists e))
  | rcGetSet k v => fun e =>
      if down e then (Fail refused, next e) else
      (match strs e !! k with Some old => Ok old | None => Fail RedisNil end,
       store e (<[k := pretty v]> (strs e)) (lists e))
  | rcSet k v _ => fun e =>
      if down e then (Fail refused, next e) else
      (Ok "OK", store e (<[k := pretty v]> (strs e)) (lists e))
  | rcLLen k => fun e =>
      if down e then (Fail refused, next e) else
      (Ok (Z.of_nat (length (default [] (lists e !! k)))), store e (strs e) (lists e))
  | rcLPush k vs => fun e =>
      if down e then (Fail refused, next e) else
      (* the client writes a nil argument as the empty string *)
      let l := rev (default "" <$> vs) ++ default [] (lists e !! k) in
      (Ok (Z.of_nat (length l)), store e (strs e) (<[k := l]> (lists e)))
  | rcBRPop _ ks => fun e =>
      if down e then (Fail refused, next e) else
      match ks with
      | [k] =>
          match rev (default [] (lists e !! k)) with
          | v :: l => (Ok [k; v], store e (strs e) (<[k := rev l]> (lists e)))
          | [] => (Fail RedisNil, store e (strs e) (lists e))
          end
      | _ => (Fail RedisNil, store e (strs e) (lists e))
      end
  end.

(** An empty server, at clock reading [t]. *)
Definition fresh (t : Time) (o : list bool) : Env :=
  {| clock := t; period := 0; strs := ∅; lists := ∅; outages := o |}.

(** A server on which the lock key of bucket ["b"] holds [s]. *)
Definition locked (t : Time) (o : list bool) (s : string) : Env :=
  {| clock := t; period := 0; strs := {[ "b_lock" := s ]}; lists := ∅; outages := o |}.

End Memory.

(** ** Reading runs and traces *)

Definition trace_of {R H S} (o : list Event * R * H * S) : list Event := o.1.1.1.
Definition result_of {T R H S} (o : T * R * H * S) : R := o.1.1.2.
Definition handle_of {T R H S} (o : T * R * H * S) : H := o.1.2.

(** The values sent on [errors]. *)
Definition sends (t : list Event) : list goerror :=
  omap (fun ev => match ev with ESend e => Some e | _ => None end) t.

(** The pushes on token queues: key and values. *)
Definition pushes (t : list Event) : list (string * list (option string)) :=
  omap (fun ev => match ev with ELPush k vs _ => Some (k, vs) | _ => None end) t.

(** The keys of the lease commands ([SetNX], [Get], [GetSet], [Set]). *)
Definition lease_keys (t : list Event) : list string :=
  omap (fun ev =>
          match ev with
          | ESetNX k _ _ _ | EGet k _ | EGetSet k _ _ | ESet k _ _ _ => Some k
          | _ => None
          end) t.

(** [lease_writes P last t]: every command of [t] that writes a lease value
    ([SetNX], [GetSet], [Set]) comes after a reading [now] of the clock, and
    the value [v] it writes satisfies [P now v] for the latest such reading.
    [last] is the latest reading before [t], if any. *)
Fixpoint lease_writes (P : Time -> Z -> Prop) (last : option Time) (t : list Event) : Prop :=
  match t with
  | [] => True
  | ENow now :: t' => lease_writes P (Some now) t'
  | (ESetNX _ v _ _ | EGetSet _ v _ | ESet _ v _ _) :: t' =>
      match last with Some now => P now v | None => False end
      /\ lease_writes P last t'
  | _ :: t' => lease_writes P last t'
  end.

(** The non-nil errors among the values returned by [GetToken] calls. *)
Definition faults (rs : list goerror) : list error := omap id rs.

(** The configuration of [dtb'] is that of [dtb]. *)
Definition same_config (dtb dtb' : DTB) : Prop :=
  bucketName dtb' = bucketName dtb
  /\ capacity dtb' = capacity dtb
  /\ cadence dtb' = cadence dtb.

(** The fault signal of a process of which [sent] lists the values its
    goroutine has sent so far and [seen] the errors its [GetToken] calls have
    returned so far: nothing sent and nothing seen; or one error sent, the
    goroutine stopped, and the error either still offered on the channel and
    seen by nobody, or taken from it and seen once. *)
Definition single_shot (sent : list goerror) (seen : list error) (p : Process) : Prop :=
  match sent with
  | [] => errors (self p) = [] /\ seen = []
  | [Some e] =>
      goroutine p = Stopped
      /\ (errors (self p) = [Some e] /\ seen = []
          \/ errors (self p) = [] /\ seen = [e])
  | _ => False
  end.

(** The pops on token queues: timeout and keys. *)
Definition pops (t : list Event) : list (Duration * list string) :=
  omap (fun ev => match ev with EBRPop d ks _ => Some (d, ks) | _ => None end) t.

(** The keys of the commands by which [acquireLock] contends for the lease
    ([SetNX], [Get], [GetSet]). *)
Definition acquisitions (t : list Event) : list string :=
  omap (fun ev =>
          match ev with
          | ESetNX k _ _ _ | EGet k _ | EGetSet k _ _ => Some k
          | _ => None
          end) t.

(** The keys of the commands on token queues that the goroutine issues
    ([LLen], [LPush]). *)
Definition queue_keys (t : list Event) : list string :=
  omap (fun ev =>
          match ev with
          | ELLen k _ | ELPush k _ _ => Some k
          | _ => None
          end) t.

(** The error a reply carries, as the code reads it: [Err()] of the command
    and, for the string replies that are converted, the error of [Int64()]. *)
Definition failure_of (ev : Event) : goerror :=
  match ev with
  | ESetNX _ _ _ (Fail e) | ESet _ _ _ (Fail e) | ELLen _ (Fail e)
  | ELPush _ _ (Fail e) | EBRPop _ _ (Fail e) => Some e
  | EGet _ r | EGetSet _ _ r =>
      match Int64 r with Fail e => Some e | Ok _ => None end
  | _ => None
  end.

(** The bucket of the examples: capacity 3, one token a second. *)
Definition b : DTB :=
  {| bucketName := "b"; capacity := 3; cadence := Second; errors := [] |}.

(** * Properties *)

(** Unfolds a program against an arbitrary handler: each answer of the
    handler is named, each [result] is split, and so is each test the
    program makes on what it was answered. *)
Ltac answer h H :=
  match type of H with
  | context [match h ?X ?c ?s with _ => _ end] =>
      let x := fresh "x" in let s' := fresh "s" in let E := fresh "E" in
      destruct (h X c s) as [x s'] eqn:E;
      try match type of x with
          | result bool => destruct x as [[] | ?]
          | result _ => destruct x as [? | ?]
          | unit => destruct x
          end
  | context [match ParseInt ?v with _ => _ end] =>
      let E := fresh "E" in destruct (ParseInt v) as [? | ?] eqn:E
  | context [if t_Before ?a ?c then _ else _] =>
      let E := fresh "E" in destruct (t_Before a c) eqn:E
  | context [if t_After ?a ?c then _ else _] =>
      let E := fresh "E" in destruct (t_After a c) eqn:E
  | context [if bool_decide ?P then _ else _] =>
      let E := fresh "E" in destruct (bool_decide P) eqn:E
  end.

Ltac run h H :=
  unfold invoke, mbind, Prog_bind, call in H;
  cbn [interp bind event_of Int64] in H;
  repeat (answer h H; cbn [interp bind event_of Int64] in H).

(** All the ways one pass of [fill] can go. *)
Ltac step_cases h H st :=
  destruct st; unfold fillStep, acquireIter, tickIter, acquireLock in H;
  run h H; injection H as <- <- <- <-.

Ltac same_parse :=
  repeat match goal with
    | H1 : ParseInt ?x = _, H2 : ParseInt ?x = _ |- _ =>
        rewrite H1 in H2; simplify_eq
    end.

(** ** Against any clock and any store

    [h] answers the commands in this section: whatever the clock reads and
    whatever the store holds, answers or fails to answer. *)
Section AnyStore.

Context {S : Type} (h : Handler S).

(** ** Running programs *)

Lemma interp_bind {A B} (p : Prog A) (f : A -> Prog B) dtb s :
  interp h (bind p f) dtb s =
  let '(t1, a, dtb1, s1) := interp h p dtb s in
  let '(t2, r, dtb2, s2) := interp h (f a) dtb1 s1 in
  (t1 ++ t2, r, dtb2, s2).
Proof.
  revert dtb s.
  induction p as [a | X c k IH | e k IH | k IH | upd k IH]; intros dtb s;
    cbn [interp bind].
  - destruct (interp h (f a) dtb s) as [[[t r] d] s']. reflexivity.
  - destruct (h X c s) as [x s1]. rewrite IH.
    destruct (interp h (k x) dtb s1) as [[[t1 a] d1] s2].
    destruct (interp h (f a) d1 s2) as [[[t2 r] d2] s3]. reflexivity.
  - rewrite IH.
    destruct (interp h k _ s) as [[[t1 a] d1] s2].
    destruct (interp h (f a) d1 s2) as [[[t2 r] d2] s3]. reflexivity.
  - destruct (errors dtb) as [| e ch]; rewrite IH.
    + destruct (interp h (k None) _ s) as [[[t1 a] d1] s2].
      destruct (interp h (f a) d1 s2) as [[[t2 r] d2] s3]. reflexivity.
    + destruct (interp h (k (Some e)) _ s) as [[[t1 a] d1] s2].
      destruct (interp h (f a) d1 s2) as [[[t2 r] d2] s3]. reflexivity.
  - rewrite IH. reflexivity.
Qed.

Lemma same_config_refl dtb : same_config dtb dtb.
Proof. repeat split. Qed.

Lemma same_config_trans d1 d2 d3 :
  same_config d1 d2 -> same_config d2 d3 -> same_config d1 d3.
Proof. unfold same_config. intuition congruence. Qed.

Lemma same_config_with_errors dtb ch : same_config dtb (with_errors dtb ch).
Proof. repeat split. Qed.

(** A program may assign to the fields of its receiver; the methods of
    [dtb.go] do not.  [acquireLock] leaves the whole struct alone, one pass
    of [fill] and [GetToken] act on the channel only. *)
Lemma acquireLock_handle dtb s :
  handle_of (invoke h acquireLock dtb s) = dtb.
Proof.
  destruct (invoke h acquireLock dtb s) as [[[t r] d] s1] eqn:H.
  unfold acquireLock in H. run h H; injection H as _ _ <- _; reflexivity.
Qed.

Lemma fillStep_config dtb st s :
  same_config dtb (handle_of (invoke h (fun d => fillStep d st) dtb s)).
Proof.
  destruct (invoke h (fun d => fillStep d st) dtb s) as [[[t st1] d] s1] eqn:H.
  step_cases h H st.
  all: first [apply same_config_refl | apply same_config_with_errors].
Qed.

Lemma GetToken_config dtb s :
  same_config dtb (handle_of (invoke h GetToken dtb s)).
Proof.
  unfold GetToken, invoke, mbind, Prog_bind, call. cbn [interp bind].
  destruct (errors dtb) as [| [e |] ch]; cbn [interp bind event_of];
    try apply same_config_with_errors.
  all: destruct (h _ (rcBRPop 0 [bucketName dtb]) s) as [reply s1];
    apply same_config_with_errors.
Qed.

Lemma fillRun_config n st dtb s :
  same_config dtb (handle_of (fillRun h n st dtb s)).
Proof.
  revert st dtb s. induction n as [| n IH]; intros st dtb s; cbn [fillRun].
  - apply same_config_refl.
  - pose proof (fillStep_config dtb st s) as H1.
    destruct (invoke h (fun d => fillStep d st) dtb s) as [[[t1 st1] d1] s1].
    specialize (IH st1 d1 s1).
    destruct (fillRun h n st1 d1 s1) as [[[t2 st2] d2] s2].
    eapply same_config_trans; [exact H1 | exact IH].
Qed.

Lemma schedule_config acts p s :
  same_config (self p) (self (handle_of (schedule h acts p s))).
Proof.
  revert p s. induction acts as [| a acts IH]; intros p s; cbn [schedule].
  - apply same_config_refl.
  - assert (same_config (self p) (self (handle_of (act h a p s)))) as H1.
    { destruct a; cbn [act].
      - pose proof (fillStep_config (self p) (goroutine p) s) as H.
        destruct (invoke h (fun d => fillStep d (goroutine p)) (self p) s)
          as [[[t st] d] s1].
        exact H.
      - pose proof (GetToken_config (self p) s) as H.
        destruct (invoke h GetToken (self p) s) as [[[t r] d] s1].
        exact H. }
    destruct (act h a p s) as [[[t1 r1] p1] s1].
    specialize (IH p1 s1).
    destruct (schedule h acts p1 s1) as [[[t2 r2] p2] s2].
    eapply same_config_trans; [exact H1 | exact IH].
Qed.

Lemma same_config_lock dtb dtb' :
  same_config dtb dtb' -> lockKey dtb' = lockKey dtb /\ lockVal dtb' = lockVal dtb.
Proof.
  intros (Hn & _ & Hc). unfold lockKey, lockVal, lockDuration.
  rewrite Hn, Hc. split; reflexivity.
Qed.

(** ** Comparing instants *)

Lemma t_Before_true t u : t_Before t u = true <-> t < u.
Proof. unfold t_Before. apply bool_decide_eq_true. Qed.

Lemma t_Before_false t u : t_Before t u = false <-> u <= t.
Proof. unfold t_Before. rewrite bool_decide_eq_false. lia. Qed.

Lemma t_After_true t u : t_After t u = true <-> u < t.
Proof. unfold t_After. apply bool_decide_eq_true. Qed.

Lemma t_After_false t u : t_After t u = false <-> t <= u.
Proof. unfold t_After. rewrite bool_decide_eq_false. lia. Qed.

(** What [strconv] returns without error is an [int64]. *)
Lemma digit_range c d : digit c = Some d -> 0 <= d <= 9.
Proof.
  unfold digit. destruct (bool_decide _) eqn:E; [| discriminate].
  apply bool_decide_eq_true in E. intros [= <-]. lia.
Qed.

Lemma digits_nonneg s : forall n u, 0 <= n -> digits n s = inl u -> 0 <= u.
Proof.
  induction s as [| c s IH]; intros n u Hn H; cbn [digits] in H.
  - injection H as <-. exact Hn.
  - destruct (digit c) as [d |] eqn:Hd; [| discriminate].
    apply digit_range in Hd.
    destruct (bool_decide _); [discriminate |].
    destruct (bool_decide _); [discriminate |].
    apply (IH (10 * n + d)); [lia | exact H].
Qed.

Lemma ParseInt_range s v : ParseInt s = Ok v -> - 2 ^ 63 <= v < 2 ^ 63.
Proof.
  unfold ParseInt. destruct s as [| c s']; [discriminate |].
  match goal with
  | |- context [let '(_, _) := ?m in _] => destruct m as [neg body]
  end.
  destruct (ParseUint body) as [un | []] eqn:Hu; try discriminate.
  assert (0 <= un) as Hun.
  { unfold ParseUint in Hu. destruct body; [discriminate |].
    apply (digits_nonneg _ 0 un) in Hu; lia. }
  destruct neg; cbn [negb andb].
  - destruct (bool_decide (2 ^ 63 < un)) eqn:E; [discriminate |].
    apply bool_decide_eq_false in E. intros [= <-]. lia.
  - destruct (bool_decide (2 ^ 63 <= un)) eqn:E; [discriminate |].
    apply bool_decide_eq_false in E. intros [= <-]. lia.
Qed.

(** [time.Unix] on whole seconds: never after the instant asked for, and the
    instant itself below [2^63 - unixToInternal]. *)
Lemma time_Unix_int64 sec :
  - 2 ^ 63 <= sec < 2 ^ 63 ->
  time_Unix sec 0 <= unix_instant sec 0
  /\ (sec < 2 ^ 63 - unixToInternal -> time_Unix sec 0 = unix_instant sec 0)
  /\ (2 ^ 63 - unixToInternal <= sec ->
      time_Unix sec 0 = unix_instant (sec - 2 ^ 64) 0).
Proof.
  intros Hs. unfold time_Unix, unix_instant, wrap64, unixToInternal, Second in *.
  rewrite Z.div_0_l, Z.mod_0_l, !Z.add_0_r by lia.
  pose proof (Z.div_mod (sec + 62135596800 + 2 ^ 63) (2 ^ 64) ltac:(lia)) as Hd.
  pose proof (Z.mod_pos_bound (sec + 62135596800 + 2 ^ 63) (2 ^ 64) ltac:(lia)) as Hm.
  split; [| split]; lia.
Qed.

Lemma time_Unix_parsed s v :
  ParseInt s = Ok v ->
  time_Unix v 0 <= unix_instant v 0
  /\ (v < 2 ^ 63 - unixToInternal -> time_Unix v 0 = unix_instant v 0).
Proof.
  intros H. apply ParseInt_range in H.
  destruct (time_Unix_int64 v H) as (H1 & H2 & _). auto.
Qed.

(** A cadence whose double is a [Duration]. *)
Lemma lockDuration_in_range dtb :
  - 2 ^ 62 <= cadence dtb < 2 ^ 62 -> lockDuration dtb = 2 * cadence dtb.
Proof.
  intros Hc. unfold lockDuration, int64_mul, wrap64.
  rewrite Z.mod_small by lia. lia.
Qed.

Ltac instants :=
  repeat match goal with
    | H : t_Before _ _ = true |- _ => apply t_Before_true in H
    | H : t_Before _ _ = false |- _ => apply t_Before_false in H
    | H : t_After _ _ = true |- _ => apply t_After_true in H
    | H : t_After _ _ = false |- _ => apply t_After_false in H
    | H : bool_decide _ = true |- _ => apply bool_decide_eq_true in H
    | H : bool_decide _ = false |- _ => apply bool_decide_eq_false in H
    end;
  repeat match goal with
    | H : ParseInt ?s = Ok ?v |- _ =>
        lazymatch goal with
        | _ : time_Unix v 0 <= unix_instant v 0 |- _ => fail
        | _ => destruct (time_Unix_parsed s v H)
        end
    end.

(** ** The lease: [acquireLock] *)

(** C1 (amended).  A call of [acquireLock] whose [SetNX] answers [false]
    and whose [Get] reads the lease value [v], [now] being the clock reading
    taken at the start of the call.  When [v] has not passed (it is in the
    future, or it is the instant [now] itself) and is below
    [2^63 - unixToInternal], where [time.Unix] wraps, nothing more is done
    and the call returns not-owner, no error.  When [v] has passed, the call
    issues [GetSet] with the candidate value, and, [p] being the previous
    value that [GetSet] returns: the call returns the candidate value
    (owner) when [p] is not after [now]; and for [p] below
    [2^63 - unixToInternal] it does so only then, and returns not-owner with
    no error when [p] is after [now].  The candidate value, for a cadence
    whose double is a [Duration], is the Unix time in whole seconds of
    [now + 2 * cadence], rounded down. *)
Theorem acquireLock_contended dtb s t r dtb' s' now sv v :
  invoke h acquireLock dtb s = (t, r, dtb', s') ->
  take 3 t = [ENow now; ESetNX (lockKey dtb) (lockVal dtb now) 0 (Ok false);
              EGet (lockKey dtb) (Ok sv)] ->
  ParseInt sv = Ok v ->
  (v < 2 ^ 63 - unixToInternal -> now <= unix_instant v 0 ->
     t = take 3 t /\ r = (None, None))
  /\ (unix_instant v 0 < now ->
      exists swap,
        t = take 3 t ++ [EGetSet (lockKey dtb) (lockVal dtb now) swap] /\
        forall sp p, swap = Ok sp -> ParseInt sp = Ok p ->
          (unix_instant p 0 <= now -> r = (Some (lockVal dtb now), None)) /\
          (p < 2 ^ 63 - unixToInternal ->
             (r = (Some (lockVal dtb now), None) <-> unix_instant p 0 <= now) /\
             (now < unix_instant p 0 -> r = (None, None))))
  /\ (- 2 ^ 62 <= cadence dtb < 2 ^ 62 ->
      lockVal dtb now = t_Unix (t_Add now (2 * cadence dtb))
      /\ unix_instant (lockVal dtb now) 0 <= now + 2 * cadence dtb
         < unix_instant (lockVal dtb now) 0 + Second).
Proof.
  intros H Hpre Hv. split; [| split].
  - intros Hbound Hcmp. unfold acquireLock in H.
    run h H; injection H as <- <- <- <-; cbn [take] in Hpre;
      simplify_eq; same_parse; instants; try lia.
    split; reflexivity.
  - intros Hcmp. unfold acquireLock in H.
    run h H; injection H as <- <- <- <-; cbn [take] in Hpre;
      simplify_eq; same_parse; instants; try lia.
    all: eexists; split; [reflexivity |]; intros sp p Hsw Hp; simplify_eq.
    all: same_parse; instants; fold (lockVal dtb now).
    all: split; [intros ? | intros ?; split; [split; intros ? | intros ?]].
    all: first [reflexivity | lia | discriminate].
  - intros Hc. unfold lockVal. rewrite (lockDuration_in_range dtb Hc).
    split; [reflexivity |].
    unfold t_Unix, t_Add, unix_instant, Second.
    pose proof (Z.div_mod (now + 2 * cadence dtb) 1000000000 ltac:(lia)).
    pose proof (Z.mod_pos_bound (now + 2 * cadence dtb) 1000000000 ltac:(lia)).
    lia.
Qed.

(** ** The refill loop: [fill] *)

(** Once the goroutine has returned, it does nothing any more. *)
Lemma fillRun_Stopped n dtb s :
  fillRun h n Stopped dtb s = ([], Stopped, dtb, s).
Proof.
  induction n as [| n IH]; cbn [fillRun]; [reflexivity |].
  unfold invoke. cbn [fillStep interp]. rewrite IH. reflexivity.
Qed.

(** C7.  One pass of the first loop of [fill]: it sleeps one cadence, then
    calls [acquireLock].  On an error it sends the error on [errors] and
    returns, after which the goroutine takes no further step (so it is never
    Active); on not-owner without error it goes round again; and it leaves
    the loop for the tick loop exactly when [acquireLock] returned a lock
    id. *)
Theorem acquiring_iteration dtb s s1 ta lockID err dtb1 s2
    t st dtb' s' :
  h unit (Sleep (cadence dtb)) s = ((), s1) ->
  invoke h acquireLock dtb s1 = (ta, (lockID, err), dtb1, s2) ->
  invoke h acquireIter dtb s = (t, st, dtb', s') ->
  match err, lockID with
  | Some e, _ =>
      t = ESleep (cadence dtb) :: ta ++ [ESend (Some e)] /\ st = Stopped
      /\ errors dtb' = errors dtb ++ [Some e]
      /\ forall n s3, fillRun h n st dtb' s3 = ([], Stopped, dtb', s3)
  | None, None =>
      t = ESleep (cadence dtb) :: ta /\ st = Acquiring /\ errors dtb' = errors dtb
  | None, Some id =>
      t = ESleep (cadence dtb) :: ta ++ [ETick (cadence dtb)] /\ st = Active id
      /\ errors dtb' = errors dtb
  end
  /\ ((exists id, st = Active id) <-> (exists id, lockID = Some id /\ err = None)).
Proof.
  intros Hs Ha H. unfold acquireIter, invoke, mbind, Prog_bind, call in H.
  cbn [interp bind] in H. rewrite Hs in H. cbn [interp bind] in H.
  rewrite interp_bind in H.
  unfold invoke, goerror in Ha, H. rewrite Ha in H. cbn [event_of] in H.
  assert (dtb1 = dtb) as ->.
  { unfold acquireLock in Ha. run h Ha; simplify_eq; reflexivity. }
  destruct err as [e |]; [| destruct lockID as [id |]];
    cbn [interp bind event_of] in H.
  - injection H as <- <- <- <-. split.
    + repeat split. intros n s3. apply fillRun_Stopped.
    + split; [intros [id [=]] | intros (id & _ & [=])].
  - destruct (h unit (Tick (cadence dtb)) s2) as [[] s3].
    injection H as <- <- <- <-. split; [repeat split |].
    split; intros _; eauto.
  - injection H as <- <- <- <-. split; [rewrite app_nil_r; repeat split |].
    split; [intros [id [=]] | intros (id & [=] & _)].
Qed.

(** C2.  Every pass of the tick loop starts by reading the length of the
    queue with [LLen]; when the answer is the length [n], the pass pushes on
    the queue exactly once, and one placeholder, if and only if [n] is less
    than the capacity; when [n] is the capacity or more it pushes nothing. *)
Theorem tick_pushes_below_capacity dtb lockID s t st dtb' s' :
  invoke h (fun d => tickIter d lockID) dtb s = (t, st, dtb', s') ->
  exists len, head t = Some (ELLen (bucketName dtb) len)
  /\ forall n, len = Ok n ->
       (pushes t = [(bucketName dtb, [placeholder])] <-> n < capacity dtb)
       /\ (pushes t = [] <-> capacity dtb <= n).
Proof.
  intros H. unfold tickIter in H.
  run h H; injection H as <- <- <- <-; instants.
  all: eexists; split; [reflexivity |]; intros n [=]; subst.
  all: cbn; split; split; first [lia | reflexivity | discriminate].
Qed.

(** The tick loop reports the failures of [LLen] and of [LPush]: the error is
    sent on [errors] and the goroutine returns. *)
Lemma tick_queue_failure_reported dtb lockID s t st dtb' s' k e :
  invoke h (fun d => tickIter d lockID) dtb s = (t, st, dtb', s') ->
  (ELLen k (Fail e) ∈ t \/ exists vs, ELPush k vs (Fail e) ∈ t) ->
  last t = Some (ESend (Some e)) /\ st = Stopped
  /\ errors dtb' = errors dtb ++ [Some e].
Proof.
  intros H Hin. unfold tickIter in H.
  run h H; injection H as <- <- <- <-.
  all: destruct Hin as [Hin | [vs Hin]];
    repeat (apply elem_of_cons in Hin as [Hin | Hin]; [try discriminate Hin |]);
    try (apply elem_of_nil in Hin; contradiction).
  all: simplify_eq; repeat split.
Qed.

(** The failure of the renewal [Set] is not looked at: the pass ends like one
    whose renewal succeeded, nothing is sent and the loop goes on. *)
Lemma tick_renewal_failure_ignored dtb lockID s t st dtb' s' k v x e :
  invoke h (fun d => tickIter d lockID) dtb s = (t, st, dtb', s') ->
  ESet k v x (Fail e) ∈ t ->
  sends t = [] /\ st = Active lockID /\ errors dtb' = errors dtb.
Proof.
  intros H Hin. unfold tickIter in H.
  run h H; injection H as <- <- <- <-.
  all: repeat (apply elem_of_cons in Hin as [Hin | Hin]; [try discriminate Hin |]);
    try (apply elem_of_nil in Hin; contradiction).
  all: repeat split.
Qed.

(** ** The public operation: [GetToken] *)

(** The three ways a call of [GetToken] can go, by what is on offer on
    [errors]: an error, a [nil], or nothing. *)
Lemma GetToken_run dtb s :
  invoke h GetToken dtb s =
  match errors dtb with
  | Some e :: ch => ([ESelect (Some (Some e))], Some e, with_errors dtb ch, s)
  | None :: ch =>
      let '(reply, s1) := h _ (rcBRPop 0 [bucketName dtb]) s in
      ([ESelect (Some None); EBRPop 0 [bucketName dtb] reply], None,
       with_errors dtb ch, s1)
  | [] =>
      let '(reply, s1) := h _ (rcBRPop 0 [bucketName dtb]) s in
      ([ESelect None; EBRPop 0 [bucketName dtb] reply], None,
       with_errors dtb [], s1)
  end.
Proof.
  unfold GetToken, invoke, mbind, Prog_bind, call. cbn [interp bind].
  destruct (errors dtb) as [| [e |] ch]; cbn [interp bind event_of];
    try reflexivity.
  all: destruct (h _ (rcBRPop 0 [bucketName dtb]) s) as [reply s1]; reflexivity.
Qed.

(** C5.  Every call of [GetToken] starts with the non-blocking receive on
    [errors].  When a goroutine is offering an error there, the call takes
    it and returns it, and does nothing else: no command reaches the store.
    Otherwise the call issues [BRPop] on the bucket's queue with timeout 0
    (wait without limit) and returns [nil]. *)
Theorem GetToken_checks_fault_first dtb s t r dtb' s' :
  invoke h GetToken dtb s = (t, r, dtb', s') ->
  (exists msg, head t = Some (ESelect msg))
  /\ (forall e, head (errors dtb) = Some (Some e) ->
        t = [ESelect (Some (Some e))] /\ r = Some e
        /\ errors dtb' = tail (errors dtb) /\ s' = s)
  /\ ((forall e, head (errors dtb) <> Some (Some e)) ->
        exists msg reply,
          t = [ESelect msg; EBRPop 0 [bucketName dtb] reply] /\ r = None).
Proof.
  rewrite GetToken_run. intros H.
  destruct (errors dtb) as [| [e |] ch];
    [destruct (h _ (rcBRPop 0 [bucketName dtb]) s) as [reply s1] | |
     destruct (h _ (rcBRPop 0 [bucketName dtb]) s) as [reply s1]];
    injection H as <- <- <- <-; cbn [head tail].
  all: split; [eexists; reflexivity |]; split.
  all: try (intros e' [=]; subst; repeat split).
  all: try (intros _; eexists _, _; split; reflexivity).
  intros Hno. destruct (Hno e). reflexivity.
Qed.

(** C10.  With nothing offered on [errors], [GetToken] returns [nil]
    whatever the store answers to the pop: whenever the trace holds a
    [BRPop], failed or not, the result is [nil].  A result that is not [nil]
    is an error that was received from [errors], by a call that issued no
    command. *)
Theorem GetToken_returns_only_faults dtb s t r dtb' s' :
  invoke h GetToken dtb s = (t, r, dtb', s') ->
  (errors dtb = [] -> r = None)
  /\ (forall reply, EBRPop 0 [bucketName dtb] reply ∈ t -> r = None)
  /\ (forall e, r = Some e ->
        exists ch, errors dtb = Some e :: ch /\ t = [ESelect (Some (Some e))]).
Proof.
  rewrite GetToken_run. intros H.
  destruct (errors dtb) as [| [e |] ch];
    [destruct (h _ (rcBRPop 0 [bucketName dtb]) s) as [reply s1] | |
     destruct (h _ (rcBRPop 0 [bucketName dtb]) s) as [reply s1]];
    injection H as <- <- <- <-.
  all: split; [intros [=]; reflexivity || done |];
    split; [intros reply' Hin | intros e' [=]; subst; eauto]; try reflexivity.
  apply list_elem_of_singleton in Hin. discriminate Hin.
Qed.

(** ** What the loop writes under the lock key *)

Lemma lease_writes_impl (P Q : Time -> Z -> Prop) last t :
  (forall now v, P now v -> Q now v) ->
  lease_writes P last t -> lease_writes Q last t.
Proof.
  intros HPQ. revert last.
  induction t as [| ev t IH]; intros last H; [exact I |].
  destruct ev; cbn [lease_writes] in *; auto.
  all: destruct H as [Hv Ht]; split; [destruct last; auto | auto].
Qed.

Lemma lease_writes_app P last t1 t2 :
  lease_writes P last t1 ->
  (forall l, lease_writes P l t2) ->
  lease_writes P last (t1 ++ t2).
Proof.
  intros H1 H2. revert last H1.
  induction t1 as [| ev t1 IH]; intros last H1; cbn [app]; [apply H2 |].
  destruct ev; cbn [lease_writes] in *; auto.
  all: destruct H1 as [Hv Ht]; split; auto.
Qed.

(** In one pass, every lease command is on the lock key, and every lease
    value written is [lockVal] of a clock reading taken in the same pass. *)
Lemma fillStep_lease dtb st s t st' dtb' s' last :
  invoke h (fun d => fillStep d st) dtb s = (t, st', dtb', s') ->
  Forall (eq (lockKey dtb)) (lease_keys t)
  /\ lease_writes (fun now v => v = lockVal dtb now) last t.
Proof.
  intros H. step_cases h H st.
  all: cbn; unfold lockVal; repeat constructor.
Qed.

Lemma fillRun_lease n dtb st s last :
  Forall (eq (lockKey dtb)) (lease_keys (trace_of (fillRun h n st dtb s)))
  /\ lease_writes (fun now v => v = lockVal dtb now) last
       (trace_of (fillRun h n st dtb s)).
Proof.
  revert dtb st s last.
  induction n as [| n IH]; intros dtb st s last; cbn [fillRun].
  - split; [constructor | exact I].
  - pose proof (fillStep_config dtb st s) as Hc.
    destruct (invoke h (fun d => fillStep d st) dtb s) as [[[t1 st1] d1] s1] eqn:H1.
    cbn in Hc.
    apply same_config_lock in Hc as [Hk Hv].
    pose proof (fun l => IH d1 st1 s1 l) as IH'.
    destruct (fillRun h n st1 d1 s1) as [[[t2 st2] d2] s2].
    unfold trace_of in *. cbn [fst] in *.
    rewrite Hk, Hv in IH'.
    split.
    + unfold lease_keys. rewrite omap_app. apply Forall_app. split.
      * eapply (fillStep_lease dtb st s t1 st1 d1 s1 None). exact H1.
      * apply (IH' None).
    + apply lease_writes_app.
      * eapply (fillStep_lease dtb st s t1 st1 d1 s1 last). exact H1.
      * intros l. apply (IH' l).
Qed.


(** C8 (amended).  For a cadence whose double is a [Duration], the lease
    duration is twice the cadence and the lock key is the bucket name
    followed by ["_lock"]; every lease command that [fill] issues is on that
    key, and every lease value it writes, when acquiring and when renewing,
    is the Unix time of the clock reading shifted by twice the cadence. *)
Theorem lease_duration_and_key n dtb st s :
  - 2 ^ 62 <= cadence dtb < 2 ^ 62 ->
  lockDuration dtb = 2 * cadence dtb
  /\ lockKey dtb = bucketName dtb +:+ "_lock"
  /\ Forall (eq (bucketName dtb +:+ "_lock"))
       (lease_keys (trace_of (fillRun h n st dtb s)))
  /\ lease_writes (fun now v => v = t_Unix (t_Add now (2 * cadence dtb))) None
       (trace_of (fillRun h n st dtb s)).
Proof.
  intros Hc. split; [exact (lockDuration_in_range dtb Hc) |].
  split; [reflexivity |].
  destruct (fillRun_lease n dtb st s None) as [Hk Hw].
  split; [exact Hk |].
  eapply lease_writes_impl; [| exact Hw].
  intros now v ->. unfold lockVal. rewrite (lockDuration_in_range dtb Hc). reflexivity.
Qed.

(** ** The fault signal *)

Lemma sends_app t1 t2 : sends (t1 ++ t2) = sends t1 ++ sends t2.
Proof. apply omap_app. Qed.

Lemma faults_app r1 r2 : faults (r1 ++ r2) = faults r1 ++ faults r2.
Proof. apply omap_app. Qed.

(** One pass of [fill] either sends nothing and leaves the channel alone, or
    ends by sending one error and returning; a stopped goroutine does
    nothing. *)
Lemma fillStep_sends dtb st s t st' dtb' s' :
  invoke h (fun d => fillStep d st) dtb s = (t, st', dtb', s') ->
  (sends t = [] /\ errors dtb' = errors dtb /\ (st = Stopped -> st' = Stopped))
  \/ (exists e, sends t = [Some e] /\ last t = Some (ESend (Some e))
                /\ st' = Stopped /\ st <> Stopped
                /\ errors dtb' = errors dtb ++ [Some e]).
Proof.
  intros H. step_cases h H st.
  all: first [ left; repeat split; (reflexivity || intros [=])
             | right; eexists; repeat split; intros [=] ].
Qed.

Lemma act_single_shot a p s t r p' s' sent seen :
  single_shot sent seen p ->
  act h a p s = (t, r, p', s') ->
  single_shot (sent ++ sends t) (seen ++ faults r) p'.
Proof.
  intros Inv H. destruct p as [dtb st]. destruct a; cbn [act self goroutine] in H.
  - destruct (invoke h (fun d => fillStep d st) dtb s) as [[[t1 st1] d1] s1] eqn:H1.
    injection H as <- <- <- <-. rewrite app_nil_r.
    apply fillStep_sends in H1 as [(Hs & He & Hst) | (e & Hs & _ & Hst & Hne & He)];
      rewrite Hs; unfold single_shot in *; cbn [self goroutine] in *.
    + rewrite app_nil_r, He. destruct sent as [| [e |] [|]]; intuition.
    + destruct sent as [| [e0 |] [|]]; cbn [app]; try contradiction.
      * destruct Inv as [Hch ->]. rewrite He, Hch. auto.
      * destruct Inv as [-> _]. contradiction.
  - rewrite GetToken_run in H.
    unfold single_shot in *; cbn [self goroutine] in *.
    destruct sent as [| [e |] [|]]; try contradiction.
    + destruct Inv as [Hch ->]. rewrite Hch in H.
      destruct (h _ (rcBRPop 0 [bucketName dtb]) s) as [reply s1].
      injection H as <- <- <- <-. cbn. auto.
    + destruct Inv as [Hst [[Hch ->] | [Hch ->]]]; rewrite Hch in H.
      * injection H as <- <- <- <-. cbn. auto.
      * destruct (h _ (rcBRPop 0 [bucketName dtb]) s) as [reply s1].
        injection H as <- <- <- <-. cbn. auto.
Qed.

Lemma schedule_single_shot acts p s t rs p' s' sent seen :
  single_shot sent seen p ->
  schedule h acts p s = (t, rs, p', s') ->
  single_shot (sent ++ sends t) (seen ++ faults rs) p'.
Proof.
  revert p s t rs p' s' sent seen.
  induction acts as [| a acts IH]; intros p s t rs p' s' sent seen Inv H;
    cbn [schedule] in H.
  - injection H as <- <- <- <-. cbn. rewrite !app_nil_r. exact Inv.
  - destruct (act h a p s) as [[[t1 r1] p1] s1] eqn:H1.
    destruct (schedule h acts p1 s1) as [[[t2 r2] p2] s2] eqn:H2.
    injection H as <- <- <- <-.
    rewrite sends_app, faults_app, !app_assoc.
    eapply IH; [| exact H2].
    eapply act_single_shot; [exact Inv | exact H1].
Qed.

(** C6.  A process started by [NewDTB], its goroutine and its callers taking
    turns in any order: the goroutine sends at most one value on [errors],
    and once it has sent it is stopped; at most one [GetToken] call returns
    an error, which is then the error that was sent, and the channel is
    empty again; and while the error sent has been returned by no call yet
    it is on offer, and the next [GetToken] returns it. *)
Theorem fault_signal_single_shot name cap cad acts s t rs p s' :
  schedule h acts (NewDTB name cap cad) s = (t, rs, p, s') ->
  (length (sends t) <= 1)%nat
  /\ (sends t <> [] -> goroutine p = Stopped)
  /\ (length (faults rs) <= 1)%nat
  /\ (forall e, faults rs = [e] -> sends t = [Some e] /\ errors (self p) = [])
  /\ (sends t = [] -> faults rs = [] /\ errors (self p) = [])
  /\ (forall m, sends t = [m] -> faults rs = [] ->
        exists e, m = Some e /\ errors (self p) = [Some e]
        /\ forall s2, let out := invoke h GetToken (self p) s2 in
                      result_of out = Some e /\ errors (handle_of out) = []).
Proof.
  intros H.
  assert (single_shot (sends t) (faults rs) p) as Inv.
  { apply (schedule_single_shot acts (NewDTB name cap cad) s t rs p s' [] []);
      [split; reflexivity | exact H]. }
  unfold single_shot in Inv.
  destruct (sends t) as [| [e |] [|]]; try contradiction.
  - destruct Inv as [Hch ->].
    split_and!; cbn [length]; try lia; try congruence; try discriminate; auto.
  - destruct Inv as [Hst [[Hch ->] | [Hch ->]]].
    + split_and!; cbn [length]; try lia; try congruence; try discriminate; auto.
      intros m [= <-] _. exists e. split_and!; try done.
      intros s2. rewrite GetToken_run, Hch. split; reflexivity.
    + split_and!; cbn [length]; try lia; try congruence; try discriminate; auto.
      intros e' [= <-]. auto.
Qed.

(** ** The configuration *)

(** C9.  A method can assign to the fields of its receiver ([Assign]); none
    of the operations does.  [acquireLock] returns the handle as it found
    it; one pass of [fill], any number of passes, and [GetToken] leave
    [bucketName], [capacity] and [cadence] as they were; and whatever the
    goroutine and the callers of a handle made by [NewDTB] do, in any order,
    the three fields keep the values passed to [NewDTB]. *)
Theorem config_never_modified dtb s name cap cad acts :
  handle_of (invoke h acquireLock dtb s) = dtb
  /\ (forall st, same_config dtb (handle_of (invoke h (fun d => fillStep d st) dtb s)))
  /\ (forall n st, same_config dtb (handle_of (fillRun h n st dtb s)))
  /\ same_config dtb (handle_of (invoke h GetToken dtb s))
  /\ (let p := handle_of (schedule h acts (NewDTB name cap cad) s) in
      bucketName (self p) = name /\ capacity (self p) = cap /\ cadence (self p) = cad).
Proof.
  split; [| split; [| split; [| split]]].
  - apply acquireLock_handle.
  - intros st. apply fillStep_config.
  - intros n st. apply fillRun_config.
  - apply GetToken_config.
  - exact (schedule_config acts (NewDTB name cap cad) s).
Qed.

End AnyStore.

(** ** Against the server in memory

    Runs of the programs on the bucket [b], which instantiate the theorems
    above and show the places where the text of the specification and the
    code part. *)

(** The configuration is kept by the methods, not by the language they are
    written in: a method that assigned to [dtb.cadence] would change it. *)
Example an_assignment_changes_the_configuration :
  let slow (d : DTB) :=
    {| bucketName := bucketName d; capacity := capacity d;
       cadence := 2 * cadence d; errors := errors d |} in
  ~ same_config b
      (handle_of (interp Memory.serve (Assign slow (Ret ())) b (Memory.fresh 0 []))).
Proof. intros slow (_ & _ & Hc). vm_compute in Hc. discriminate Hc. Qed.

(** One process alone on an empty server: it takes the lease after one
    cadence, pushes a token at each of its first three passes of the tick
    loop and none after that. *)
Example bucket_saturates :
  let out := fill Memory.serve 6 b (Memory.fresh 1500000000 []) in
  pushes (trace_of out) = [("b", [None]); ("b", [None]); ("b", [None])]
  /\ Memory.lists out.2 !! "b" = Some [""; ""; ""]
  /\ Memory.strs out.2 !! "b_lock" = Some "8".
Proof. vm_compute. repeat split. Qed.

Lemma acquireLock_contended_witness :
  let t := [ENow 1500000000; ESetNX "b_lock" 3 0 (Ok false);
            EGet "b_lock" (Ok "1"); EGetSet "b_lock" 3 (Ok "1")] in
  let r : option Z * goerror := (Some 3, None) in
  (1 < 2 ^ 63 - unixToInternal -> 1500000000 <= unix_instant 1 0 ->
     t = take 3 t /\ r = (None, None))
  /\ (unix_instant 1 0 < 1500000000 ->
      exists swap,
        t = take 3 t ++ [EGetSet (lockKey b) (lockVal b 1500000000) swap] /\
        forall sp p, swap = Ok sp -> ParseInt sp = Ok p ->
          (unix_instant p 0 <= 1500000000 ->
             r = (Some (lockVal b 1500000000), None)) /\
          (p < 2 ^ 63 - unixToInternal ->
             (r = (Some (lockVal b 1500000000), None)
              <-> unix_instant p 0 <= 1500000000) /\
             (1500000000 < unix_instant p 0 -> r = (None, None))))
  /\ (- 2 ^ 62 <= cadence b < 2 ^ 62 ->
      lockVal b 1500000000 = t_Unix (t_Add 1500000000 (2 * cadence b))
      /\ unix_instant (lockVal b 1500000000) 0 <= 1500000000 + 2 * cadence b
         < unix_instant (lockVal b 1500000000) 0 + Second).
Proof.
  intros t r.
  eapply (acquireLock_contended Memory.serve b (Memory.locked 1500000000 [] "1")
            t r _ _ 1500000000 "1" 1);
    reflexivity.
Defined.

(** The claim of C1 as the specification words it, at two runs.  The key
    holds the largest [int64]: a lease value far in the future, which
    [time.Unix] wraps into the past, so that the call overwrites the key and
    returns itself owner instead of not-owner.  And the key holds [1], long
    passed: the call becomes owner and returns [3], the instant 3.0s, where
    [now + 2 * cadence] is 3.5s. *)
Lemma acquireLock_contended_as_specified_fails :
  let far := invoke Memory.serve acquireLock b
               (Memory.locked 1500000000 [] "9223372036854775807") in
  let old := invoke Memory.serve acquireLock b (Memory.locked 1500000000 [] "1") in
  (ParseInt "9223372036854775807" = Ok (2 ^ 63 - 1)
   /\ ~ (1500000000 < unix_instant (2 ^ 63 - 1) 0 -> result_of far = (None, None)))
  /\ ~ (forall id, result_of old = (Some id, None) ->
           unix_instant id 0 = 1500000000 + 2 * cadence b).
Proof.
  vm_compute. split; [split; [reflexivity |] |].
  - intros H. specialize (H eq_refl). discriminate H.
  - intros H. specialize (H 3%Z eq_refl). discriminate H.
Qed.

Lemma acquiring_iteration_witness :
  let ta := [ENow 2500000000; ESetNX "b_lock" 4 0 (Ok true)] in
  let t := ESleep Second :: ta ++ [ETick Second] in
  (t = ESleep (cadence b) :: ta ++ [ETick (cadence b)] /\ Active 4 = Active 4
   /\ errors b = errors b)
  /\ ((exists id, Active 4 = Active id)
      <-> (exists id, Some 4 = Some id /\ @None error = None)).
Proof.
  intros ta t.
  eapply (acquiring_iteration Memory.serve b (Memory.fresh 1500000000 [])
            _ ta (Some 4) None b _ t (Active 4) b);
    reflexivity.
Defined.

Lemma tick_pushes_below_capacity_witness :
  let t := [ELLen "b" (Ok 0); ELPush "b" [None] (Ok 1); ENow 2500000000;
            ESet "b_lock" 4 0 (Ok "OK"); ETickRecv] in
  exists len, head t = Some (ELLen (bucketName b) len)
  /\ forall n, len = Ok n ->
       (pushes t = [(bucketName b, [placeholder])] <-> n < capacity b)
       /\ (pushes t = [] <-> capacity b <= n).
Proof.
  intros t.
  eapply (tick_pushes_below_capacity Memory.serve b 4 (Memory.fresh 2500000000 []) t).
  reflexivity.
Defined.

(** C4.  A pass of the tick loop in which the store answers [LLen] and
    [LPush] and then fails the renewal [Set]: the failure is dropped.
    Nothing is sent on [errors], the goroutine stays in the tick loop, and
    the [GetToken] that follows returns [nil]. *)
Theorem renewal_failure_unreported :
  let env := Memory.fresh 2500000000 [false; false; true] in
  let '(t, st, dtb', env') := invoke Memory.serve (fun d => tickIter d 4) b env in
  t = [ELLen "b" (Ok 0); ELPush "b" [None] (Ok 1); ENow 2500000000;
       ESet "b_lock" 4 0 (Fail Memory.refused); ETickRecv]
  /\ st = Active 4
  /\ errors dtb' = []
  /\ result_of (invoke Memory.serve GetToken dtb' env') = None.
Proof. vm_compute. repeat split. Qed.

Lemma GetToken_checks_fault_first_witness :
  let dtb := with_errors b [Some Memory.refused] in
  let t := [ESelect (Some (Some Memory.refused))] in
  let s := Memory.fresh 0 [] in
  (exists msg, head t = Some (ESelect msg))
  /\ (forall e, head (errors dtb) = Some (Some e) ->
        t = [ESelect (Some (Some e))] /\ Some Memory.refused = Some e
        /\ errors b = tail (errors dtb) /\ s = s)
  /\ ((forall e, head (errors dtb) <> Some (Some e)) ->
        exists msg reply,
          t = [ESelect msg; EBRPop 0 [bucketName dtb] reply]
          /\ Some Memory.refused = None).
Proof.
  intros dtb t s.
  apply (GetToken_checks_fault_first Memory.serve dtb s t (Some Memory.refused) b s).
  reflexivity.
Defined.

Lemma GetToken_returns_only_faults_witness :
  let t := [ESelect None; EBRPop 0 ["b"] (Fail Memory.refused)] in
  let r : goerror := None in
  (errors b = [] -> r = None)
  /\ (forall reply, EBRPop 0 [bucketName b] reply ∈ t -> r = None)
  /\ (forall e, r = Some e ->
        exists ch, errors b = Some e :: ch /\ t = [ESelect (Some (Some e))]).
Proof.
  intros t r.
  eapply (GetToken_returns_only_faults Memory.serve b (Memory.fresh 0 [true]) t r).
  reflexivity.
Defined.



(** The claim of C8 as the specification words it: the lease duration of
    every bucket is twice its cadence. *)
Lemma lockDuration_overflow :
  lockDuration {| bucketName := "b"; capacity := 3; cadence := 2 ^ 62; errors := [] |}
  <> 2 * 2 ^ 62.
Proof. vm_compute. intros [=]. Qed.

Lemma lease_duration_and_key_witness :
  let t := trace_of (fillRun Memory.serve 2 Acquiring b (Memory.fresh 1500000000 [])) in
  lockDuration b = 2 * cadence b
  /\ lockKey b = bucketName b +:+ "_lock"
  /\ Forall (eq (bucketName b +:+ "_lock")) (lease_keys t)
  /\ lease_writes (fun now v => v = t_Unix (t_Add now (2 * cadence b))) None t.
Proof.
  intros t.
  apply (lease_duration_and_key Memory.serve 2 b Acquiring (Memory.fresh 1500000000 [])).
  change (cadence b) with 1000000000. lia.
Defined.

Lemma fault_signal_single_shot_witness :
  let t := [ESleep Second; ENow 2500000000; ESetNX "b_lock" 4 0 (Ok true);
            ETick Second; ELLen "b" (Fail Memory.refused);
            ESend (Some Memory.refused); ESelect (Some (Some Memory.refused));
            ESelect None; EBRPop 0 ["b"] (Fail RedisNil)] in
  let rs := [Some Memory.refused; None] in
  let p := {| self := b; goroutine := Stopped |} in
  (length (sends t) <= 1)%nat
  /\ (sends t <> [] -> goroutine p = Stopped)
  /\ (length (faults rs) <= 1)%nat
  /\ (forall e, faults rs = [e] -> sends t = [Some e] /\ errors (self p) = [])
  /\ (sends t = [] -> faults rs = [] /\ errors (self p) = [])
  /\ (forall m, sends t = [m] -> faults rs = [] ->
        exists e, m = Some e /\ errors (self p) = [Some e]
        /\ forall s2, let out := invoke Memory.serve GetToken (self p) s2 in
                      result_of out = Some e /\ errors (handle_of out) = []).
Proof.
  intros t rs p.
  eapply (fault_signal_single_shot Memory.serve "b" 3 Second
            [StepFill; StepFill; CallGetToken; CallGetToken; StepFill]
            (Memory.fresh 1500000000 [false; true]) t rs p).
  reflexivity.
Defined.

(** * Further properties of the code *)

Ltac compare_instants :=
  repeat match goal with
    | H : t_Before _ _ = true |- _ => apply bool_decide_eq_true in H
    | H : t_Before _ _ = false |- _ => apply bool_decide_eq_false in H
    | H : t_After _ _ = true |- _ => apply bool_decide_eq_true in H
    | H : t_After _ _ = false |- _ => apply bool_decide_eq_false in H
    end;
  repeat match goal with
    | H : ParseInt ?s = Ok ?v |- _ =>
        lazymatch goal with
        | _ : time_Unix v 0 <= unix_instant v 0 |- _ => fail
        | _ => destruct (time_Unix_parsed s v H)
        end
    end.

Ltac in_trace :=
  repeat first [apply list_elem_of_here | apply list_elem_of_further].

Ltac parsed :=
  repeat match goal with
    | E : ParseInt ?a = _ |- context [ParseInt ?a] => rewrite E
    end.

(** The lease value is the second in which [now + 2 * cadence] falls. *)
Lemma lockVal_bounds dtb now :
  - 2 ^ 62 <= cadence dtb < 2 ^ 62 ->
  unix_instant (lockVal dtb now) 0 <= now + 2 * cadence dtb
  < unix_instant (lockVal dtb now) 0 + Second.
Proof.
  intros Hc. unfold lockVal, t_Unix, t_Add, unix_instant, lockDuration, int64_mul, wrap64.
  rewrite (Z.mod_small (2 * cadence dtb + 2 ^ 63)) by lia.
  replace (2 * cadence dtb + 2 ^ 63 - 2 ^ 63) with (2 * cadence dtb) by lia.
  unfold Second.
  pose proof (Z.div_mod (now + 2 * cadence dtb) 1000000000 ltac:(lia)).
  pose proof (Z.mod_pos_bound (now + 2 * cadence dtb) 1000000000 ltac:(lia)).
  lia.
Qed.

Lemma string_length_app (x y : string) :
  String.length (x +:+ y) = (String.length x + String.length y)%nat.
Proof. induction x as [| a x IH]; simpl; [reflexivity | f_equal; exact IH]. Qed.

Lemma string_app_inj_r (s x y : string) : x +:+ s = y +:+ s -> x = y.
Proof.
  revert y. induction x as [| a x IH]; intros [| c y] H; simpl in H.
  - reflexivity.
  - apply (f_equal String.length) in H. simpl in H.
    rewrite ?string_length_app in H. simpl in H. lia.
  - apply (f_equal String.length) in H. simpl in H.
    rewrite ?string_length_app in H. simpl in H. lia.
  - injection H as -> H. f_equal. apply IH. exact H.
Qed.

(** X11.  Two buckets have the same lock key exactly when they have the same
    name, and the lock key of a bucket is never the key of its own queue. *)
Theorem lockKey_separates_buckets d1 d2 :
  (lockKey d1 = lockKey d2 <-> bucketName d1 = bucketName d2)
  /\ lockKey d1 <> bucketName d1.
Proof.
  unfold lockKey. split; [split |].
  - apply string_app_inj_r.
  - intros ->. reflexivity.
  - intros H. apply (f_equal String.length) in H.
    rewrite string_length_app in H. simpl in H. lia.
Qed.

Section Coverage.

Context {S : Type} (h : Handler S).

(** ** More on [acquireLock] *)

(** X1.  Every call of [acquireLock] reads the clock once, first, and then
    issues [SetNX] on the lock key with the candidate value and no expiry;
    at most two more commands follow, none of them a clock reading.  When
    [SetNX] answers [true] nothing follows: the call returns the candidate
    value without reading the key. *)
Theorem acquireLock_opening dtb s :
  let out := invoke h acquireLock dtb s in
  exists now acquired rest,
    trace_of out
    = ENow now :: ESetNX (lockKey dtb) (lockVal dtb now) 0 acquired :: rest
    /\ (length rest <= 2)%nat
    /\ Forall (fun ev => forall t', ev <> ENow t') rest
    /\ (acquired = Ok true ->
        rest = [] /\ result_of out = (Some (lockVal dtb now), None)).
Proof.
  intros out. subst out.
  destruct (invoke h acquireLock dtb s) as [[[t r] d] s1] eqn:H.
  unfold acquireLock in H. run h H; injection H as <- <- <- <-.
  all: eexists _, _, _; split; [reflexivity |]; cbn [length].
  all: split; [lia |]; split; [repeat constructor; discriminate |].
  all: intros [=]; split; reflexivity.
Qed.

(** X2.  [acquireLock] stops at the first failure: the error it returns is
    the one carried by the last reply of its trace ([nil] when that reply
    carries none), no earlier reply carries an error, and with an error the
    lock id is [nil].  A missing key at [Get] ([redis.Nil]) and a value that
    is not an [int64] are such errors. *)
Theorem acquireLock_fails_fast dtb s :
  let out := invoke h acquireLock dtb s in
  snd (result_of out) = last (trace_of out) ≫= failure_of
  /\ (is_Some (snd (result_of out)) -> fst (result_of out) = None)
  /\ Forall (fun ev => failure_of ev = None) (removelast (trace_of out)).
Proof.
  intros out. subst out.
  destruct (invoke h acquireLock dtb s) as [[[t r] d] s1] eqn:H.
  unfold acquireLock in H. run h H; injection H as <- <- <- <-.
  all: unfold trace_of, result_of; cbn; parsed.
  all: split; [reflexivity |]; split; [try reflexivity; intros [? [=]] |].
  all: repeat constructor; cbn; parsed; reflexivity.
Qed.

(** X3.  [acquireLock] returns a lock id only without an error, and the id
    is the candidate value of this call, which the call has then written
    under the lock key itself: by a [SetNX] that answered [true], or by a
    [GetSet] that returned the previous value. *)
Theorem acquireLock_owner_wrote dtb s id :
  fst (result_of (invoke h acquireLock dtb s)) = Some id ->
  let t := trace_of (invoke h acquireLock dtb s) in
  snd (result_of (invoke h acquireLock dtb s)) = None
  /\ exists now, head t = Some (ENow now) /\ id = lockVal dtb now
     /\ (ESetNX (lockKey dtb) id 0 (Ok true) ∈ t
         \/ exists prev, EGetSet (lockKey dtb) id (Ok prev) ∈ t).
Proof.
  destruct (invoke h acquireLock dtb s) as [[[t r] d] s1] eqn:H.
  unfold acquireLock in H. run h H; injection H as <- <- <- <-.
  all: unfold trace_of, result_of; cbn; intros [=]; subst.
  all: split; [reflexivity |]; eexists; split; [reflexivity |];
    split; [reflexivity |].
  - left. in_trace.
  - right. eexists. in_trace.
Qed.

(** A call that finds the key set and reads a value that has passed issues
    [GetSet] with its candidate value; when [GetSet] returns the value just
    read, the call returns the candidate. *)
Lemma acquireLock_takes_over dtb s t r dtb' s' now sv v :
  invoke h acquireLock dtb s = (t, r, dtb', s') ->
  take 3 t = [ENow now; ESetNX (lockKey dtb) (lockVal dtb now) 0 (Ok false);
              EGet (lockKey dtb) (Ok sv)] ->
  ParseInt sv = Ok v ->
  unix_instant v 0 < now ->
  exists swap,
    t = take 3 t ++ [EGetSet (lockKey dtb) (lockVal dtb now) swap]
    /\ (swap = Ok sv -> r = (Some (lockVal dtb now), None)).
Proof.
  intros H Hpre Hv Hlt. unfold acquireLock in H.
  run h H; injection H as <- <- <- <-; cbn [take] in Hpre;
    simplify_eq; same_parse; compare_instants; try lia.
  all: eexists; split; [reflexivity |]; intros [=]; subst; same_parse.
  all: first [reflexivity | lia].
Qed.

(** X4.  The lease is honoured until one second before it runs out: a call
    of [acquireLock] that finds the key set, reads the value an owner wrote
    at its clock reading [now0], a value below [2^63 - unixToInternal] where
    [time.Unix] wraps, and whose own reading [now] is at most
    [now0 + 2 * cadence] less one second, returns not-owner and leaves the
    key as it is. *)
Theorem lease_honoured dtb owner s t r dtb' s' now now0 sv :
  - 2 ^ 62 <= cadence owner < 2 ^ 62 ->
  lockVal owner now0 < 2 ^ 63 - unixToInternal ->
  invoke h acquireLock dtb s = (t, r, dtb', s') ->
  take 3 t = [ENow now; ESetNX (lockKey dtb) (lockVal dtb now) 0 (Ok false);
              EGet (lockKey dtb) (Ok sv)] ->
  ParseInt sv = Ok (lockVal owner now0) ->
  now + Second <= now0 + 2 * cadence owner ->
  t = take 3 t /\ r = (None, None).
Proof.
  intros Hc Hwrap H Hpre Hv Hle. pose proof (lockVal_bounds owner now0 Hc) as Hb.
  unfold acquireLock in H.
  run h H; injection H as <- <- <- <-; cbn [take] in Hpre;
    simplify_eq; same_parse; compare_instants; try lia.
  split; reflexivity.
Qed.

(** X5.  Past its time the lease is contested: a call of [acquireLock] that
    finds the key set, reads the value an owner wrote at its reading [now0],
    and whose own reading is after [now0 + 2 * cadence], overwrites the key
    with its candidate value by [GetSet]; and it becomes owner when
    [GetSet] returns the value it had read. *)
Theorem lease_lapsed_taken_over dtb owner s t r dtb' s' now now0 sv :
  - 2 ^ 62 <= cadence owner < 2 ^ 62 ->
  invoke h acquireLock dtb s = (t, r, dtb', s') ->
  take 3 t = [ENow now; ESetNX (lockKey dtb) (lockVal dtb now) 0 (Ok false);
              EGet (lockKey dtb) (Ok sv)] ->
  ParseInt sv = Ok (lockVal owner now0) ->
  now0 + 2 * cadence owner < now ->
  exists swap,
    t = take 3 t ++ [EGetSet (lockKey dtb) (lockVal dtb now) swap]
    /\ (swap = Ok sv -> r = (Some (lockVal dtb now), None)).
Proof.
  intros Hc H Hpre Hv Hlt. pose proof (lockVal_bounds owner now0 Hc) as Hb.
  eapply acquireLock_takes_over; eauto. lia.
Qed.

(** X6.  A lease shorter than a second can be lost the moment it is written.
    When [2 * cadence] is less than a second and the owner's reading [now0]
    is not on a whole second and at least [2 * cadence] before the next one,
    the value it writes is already before [now0]: a call of [acquireLock]
    that reads it at any reading [now >= now0] overwrites the key, and
    becomes owner when [GetSet] returns the value it had read. *)
Theorem short_lease_taken_over_at_once dtb owner s t r dtb' s' now now0 sv :
  0 <= 2 * cadence owner < Second ->
  0 < now0 `mod` Second ->
  now0 `mod` Second + 2 * cadence owner < Second ->
  invoke h acquireLock dtb s = (t, r, dtb', s') ->
  take 3 t = [ENow now; ESetNX (lockKey dtb) (lockVal dtb now) 0 (Ok false);
              EGet (lockKey dtb) (Ok sv)] ->
  ParseInt sv = Ok (lockVal owner now0) ->
  now0 <= now ->
  exists swap,
    t = take 3 t ++ [EGetSet (lockKey dtb) (lockVal dtb now) swap]
    /\ (swap = Ok sv -> r = (Some (lockVal dtb now), None)).
Proof.
  intros Hc Hpos Hroom H Hpre Hv Hle.
  eapply acquireLock_takes_over; eauto.
  assert (unix_instant (lockVal owner now0) 0 < now0); [| lia].
  unfold lockVal, t_Unix, t_Add, unix_instant, lockDuration, int64_mul, wrap64, Second in *.
  rewrite (Z.mod_small (2 * cadence owner + 2 ^ 63)) by lia.
  replace (2 * cadence owner + 2 ^ 63 - 2 ^ 63) with (2 * cadence owner) by lia.
  pose proof (Z.div_mod now0 1000000000 ltac:(lia)) as Hd.
  assert ((now0 + 2 * cadence owner) `div` 1000000000 = now0 `div` 1000000000) as ->.
  { symmetry. apply (Z.div_unique _ _ _ (now0 `mod` 1000000000 + 2 * cadence owner)); lia. }
  lia.
Qed.

(** ** More on [fill] *)

(** X7.  A pass of the tick loop renews the lease last and only when nothing
    failed: either nothing is sent, and the pass ends with a clock reading,
    the [Set] of the lock key to [lockVal] of that reading and the wait for
    the ticker, all lease commands of the pass being that one [Set]; or an
    error is sent, the goroutine stops, and the pass has issued no lease
    command at all, so the lease is left to run out. *)
Theorem tick_renews_last dtb lockID s :
  let out := invoke h (fun d => tickIter d lockID) dtb s in
  (sends (trace_of out) = [] /\ result_of out = Active lockID
   /\ exists pre now reply,
        trace_of out
        = pre ++ [ENow now; ESet (lockKey dtb) (lockVal dtb now) 0 reply; ETickRecv]
        /\ lease_keys pre = [])
  \/ (exists e, sends (trace_of out) = [Some e] /\ result_of out = Stopped
                /\ lease_keys (trace_of out) = []).
Proof.
  intros out. subst out.
  destruct (invoke h (fun d => tickIter d lockID) dtb s) as [[[t r] d] s1] eqn:H.
  unfold tickIter in H. run h H; injection H as <- <- <- <-.
  all: unfold trace_of, result_of; cbn [fst snd].
  all: first
    [ right; eexists; repeat split; reflexivity
    | left; split; [reflexivity |]; split; [reflexivity |];
      first [ exists [ELLen (bucketName dtb) (Ok a)]; eexists _, _; split; reflexivity
            | eexists [_; _], _, _; split; reflexivity ] ].
Qed.

(** One pass from the tick loop, or from a stopped goroutine: no command of
    [acquireLock], no pop, at most one push, and the goroutine stays in the
    tick loop with the same lock id or is stopped. *)
Lemma fillStep_roles dtb st s t st' dtb' s' :
  invoke h (fun d => fillStep d st) dtb s = (t, st', dtb', s') ->
  pops t = []
  /\ (length (pushes t) <= 1)%nat
  /\ Forall (eq (bucketName dtb, [placeholder])) (pushes t)
  /\ (st <> Acquiring -> acquisitions t = [] /\ (st' = st \/ st' = Stopped)).
Proof.
  intros H. step_cases h H st.
  all: cbn; split; [reflexivity |]; split; [lia |]; split; [repeat constructor |].
  all: first [intros Hne; contradiction | intros _; auto].
Qed.

(** X8.  Once in the tick loop the goroutine never contends for the lease
    again: over any number of passes it issues no [SetNX], [Get] or
    [GetSet], and it stays in the tick loop with the lock id it entered
    with, or is stopped.  The lease is kept by the unconditional [Set]
    alone. *)
Theorem tick_loop_never_reacquires n lockID dtb s :
  let out := fillRun h n (Active lockID) dtb s in
  acquisitions (trace_of out) = []
  /\ (result_of out = Active lockID \/ result_of out = Stopped).
Proof.
  intros out. subst out.
  assert (forall n st dtb s, st <> Acquiring ->
            acquisitions (trace_of (fillRun h n st dtb s)) = []
            /\ (result_of (fillRun h n st dtb s) = st
                \/ result_of (fillRun h n st dtb s) = Stopped)) as Hgen.
  { clear. induction n as [| n IH]; intros st dtb s Hst; cbn [fillRun].
    - split; [reflexivity | left; reflexivity].
    - destruct (invoke h (fun d => fillStep d st) dtb s) as [[[t1 st1] d1] s1] eqn:H1.
      apply fillStep_roles in H1 as (_ & _ & _ & Hrole).
      destruct (Hrole Hst) as [Ha Hst1].
      assert (st1 <> Acquiring) as Hne by (destruct Hst1; subst; [assumption | discriminate]).
      specialize (IH st1 d1 s1 Hne).
      destruct (fillRun h n st1 d1 s1) as [[[t2 st2] d2] s2].
      unfold trace_of, result_of in *. cbn [fst snd] in *.
      destruct IH as [Ha2 Hst2]. split.
      + unfold acquisitions in *. rewrite omap_app, Ha, Ha2. reflexivity.
      + destruct Hst1, Hst2; subst; auto. }
  apply Hgen. discriminate.
Qed.

(** X9.  The goroutine only ever adds tokens, and at most one a pass: over
    [n] passes from any point of [fill] it pushes at most [n] times, each
    push is of one placeholder on the bucket's queue, and it never pops. *)
Theorem fill_adds_at_most_one_token_a_pass n st dtb s :
  let t := trace_of (fillRun h n st dtb s) in
  (length (pushes t) <= n)%nat
  /\ Forall (eq (bucketName dtb, [placeholder])) (pushes t)
  /\ pops t = [].
Proof.
  intros t. subst t. revert st dtb s.
  induction n as [| n IH]; intros st dtb s; cbn [fillRun].
  - cbn. split; [lia |]. split; [constructor | reflexivity].
  - pose proof (fillStep_config h dtb st s) as Hc.
    destruct (invoke h (fun d => fillStep d st) dtb s) as [[[t1 st1] d1] s1] eqn:H1.
    destruct Hc as (Hname & _ & _).
    apply fillStep_roles in H1 as (Hp & Hlen & Hall & _).
    specialize (IH st1 d1 s1).
    destruct (fillRun h n st1 d1 s1) as [[[t2 st2] d2] s2].
    unfold trace_of, handle_of in *. cbn [fst snd] in *.
    destruct IH as (Hlen2 & Hall2 & Hp2). rewrite Hname in Hall2.
    unfold pushes, pops in *. rewrite !omap_app, length_app.
    split; [lia |]. split; [apply Forall_app; auto |].
    rewrite Hp, Hp2. reflexivity.
Qed.

(** One pass that sends: what is sent is the error carried by the reply just
    before the send. *)
Lemma fillStep_sends_failure dtb st s t st' dtb' s' m :
  invoke h (fun d => fillStep d st) dtb s = (t, st', dtb', s') ->
  sends t = [m] ->
  st' = Stopped
  /\ exists pre ev e,
       m = Some e /\ t = pre ++ [ev; ESend (Some e)] /\ failure_of ev = Some e.
Proof.
  intros H. step_cases h H st.
  all: cbn; intros [=]; subst.
  all: split; [reflexivity |].
  all: match goal with
       | |- exists pre ev e, _ /\ ?l = _ /\ _ =>
           exists (removelast (removelast l))
       end; cbn.
  all: eexists _, _; split; [reflexivity |]; split; [reflexivity |].
  all: cbn; parsed; reflexivity.
Qed.

(** X12.  The error that [fill] sends is a failure of the store, as it was
    reported: whenever a run of [fill] has sent a value, the value is the
    error carried by the reply that comes just before the send, the send is
    the last event of the run, and the goroutine is stopped. *)
Theorem fault_is_the_store_error n st dtb s m :
  sends (trace_of (fillRun h n st dtb s)) = [m] ->
  result_of (fillRun h n st dtb s) = Stopped
  /\ exists pre ev e,
       m = Some e
       /\ trace_of (fillRun h n st dtb s) = pre ++ [ev; ESend (Some e)]
       /\ failure_of ev = Some e.
Proof.
  revert st dtb s. induction n as [| n IH]; intros st dtb s; cbn [fillRun].
  - cbn. intros [=].
  - destruct (invoke h (fun d => fillStep d st) dtb s) as [[[t1 st1] d1] s1] eqn:H1.
    pose proof (fillStep_sends h dtb st s t1 st1 d1 s1 H1) as Hs.
    specialize (IH st1 d1 s1).
    destruct (fillRun h n st1 d1 s1) as [[[t2 st2] d2] s2] eqn:H2.
    unfold trace_of, result_of in *. cbn [fst snd] in *.
    rewrite sends_app.
    destruct Hs as [(Hs & _) | (e & Hs & _ & -> & _)]; rewrite Hs.
    + cbn [app]. intros Hm. destruct (IH Hm) as (-> & pre & ev & e & -> & -> & Hf).
      split; [reflexivity |]. exists (t1 ++ pre), ev, e.
      rewrite app_assoc. auto.
    + rewrite fillRun_Stopped in H2. injection H2 as <- <- <- <-.
      cbn. intros [= <-]. rewrite app_nil_r.
      eapply fillStep_sends_failure; [exact H1 | exact Hs].
Qed.

(** One pass and the queue: the commands are on the bucket's queue, and a
    pass of the first loop issues none. *)
Lemma fillStep_queue dtb st s t st' dtb' s' :
  invoke h (fun d => fillStep d st) dtb s = (t, st', dtb', s') ->
  Forall (eq (bucketName dtb)) (queue_keys t)
  /\ (st = Acquiring -> queue_keys t = [])
  /\ (st' = Acquiring -> st = Acquiring).
Proof.
  intros H. step_cases h H st.
  all: cbn; split; [repeat constructor |]; split; first [reflexivity | intros [=]].
Qed.

(** X13.  A process adds tokens only once it holds the lease: every [LLen]
    and [LPush] that [fill] issues is on the bucket's own queue, and as long
    as the goroutine is still in its first loop it has issued none. *)
Theorem contender_never_fills n dtb s :
  let out := fillRun h n Acquiring dtb s in
  Forall (eq (bucketName dtb)) (queue_keys (trace_of out))
  /\ (result_of out = Acquiring -> queue_keys (trace_of out) = []).
Proof.
  intros out. subst out.
  assert (forall n st dtb s,
            Forall (eq (bucketName dtb)) (queue_keys (trace_of (fillRun h n st dtb s)))
            /\ (result_of (fillRun h n st dtb s) = Acquiring ->
                st = Acquiring /\ queue_keys (trace_of (fillRun h n st dtb s)) = []))
    as Hgen.
  { clear. induction n as [| n IH]; intros st dtb s; cbn [fillRun].
    - cbn. split; [constructor | auto].
    - pose proof (fillStep_config h dtb st s) as Hc.
      destruct (invoke h (fun d => fillStep d st) dtb s) as [[[t1 st1] d1] s1] eqn:H1.
      destruct Hc as (Hname & _ & _).
      apply fillStep_queue in H1 as (Hall & Hnone & Hback).
      specialize (IH st1 d1 s1).
      destruct (fillRun h n st1 d1 s1) as [[[t2 st2] d2] s2].
      unfold trace_of, result_of, handle_of in *. cbn [fst snd] in *.
      destruct IH as [Hall2 Hnone2]. rewrite Hname in Hall2.
      unfold queue_keys in *. rewrite omap_app. split.
      + apply Forall_app; auto.
      + intros Hst2. destruct (Hnone2 Hst2) as [-> Hq2].
        specialize (Hback eq_refl). subst st.
        rewrite (Hnone eq_refl), Hq2. auto. }
  destruct (Hgen n Acquiring dtb s) as [Hall Hnone].
  split; [exact Hall |]. intros Hst. apply Hnone. exact Hst.
Qed.

(** ** Callers and goroutine together *)

(** One action of the process: a [GetToken] call pops once or returns an
    error, the goroutine never pops, and every pop is on the bucket's queue
    with no timeout. *)
Lemma act_pops a p s t rs p' s' :
  act h a p s = (t, rs, p', s') ->
  length rs = (length (pops t) + length (faults rs))%nat
  /\ Forall (eq (0, [bucketName (self p)])) (pops t)
  /\ same_config (self p) (self p').
Proof.
  intros H. destruct a; cbn [act] in H.
  - pose proof (fillStep_config h (self p) (goroutine p) s) as Hc.
    destruct (invoke h (fun d => fillStep d (goroutine p)) (self p) s)
      as [[[t1 st1] d1] s1] eqn:H1.
    apply fillStep_roles in H1 as (Hp & _). injection H as <- <- <- <-.
    rewrite Hp. cbn. split; [reflexivity |]. split; [constructor | exact Hc].
  - rewrite GetToken_run in H.
    destruct (errors (self p)) as [| [e |] ch];
      [destruct (h _ (rcBRPop 0 [bucketName (self p)]) s) as [reply s1] | |
       destruct (h _ (rcBRPop 0 [bucketName (self p)]) s) as [reply s1]];
      injection H as <- <- <- <-; cbn.
    all: split; [reflexivity |]; split; repeat constructor.
Qed.

(** X10.  Whatever the goroutine and the callers do, in any order, every
    [GetToken] call has either returned an error or issued exactly one
    [BRPop]: the number of calls is the number of pops plus the number of
    errors returned, the goroutine accounting for no pop; and every pop is
    on the bucket's own queue with timeout 0. *)
Theorem every_call_pops_or_fails acts p s :
  let out := schedule h acts p s in
  length (result_of out)
  = (length (pops (trace_of out)) + length (faults (result_of out)))%nat
  /\ Forall (eq (0, [bucketName (self p)])) (pops (trace_of out)).
Proof.
  intros out. subst out. revert p s.
  induction acts as [| a acts IH]; intros p s; cbn [schedule].
  - cbn. split; [reflexivity | constructor].
  - destruct (act h a p s) as [[[t1 r1] p1] s1] eqn:H1.
    apply act_pops in H1 as (Hn & Hall & (Hname & _)).
    specialize (IH p1 s1).
    destruct (schedule h acts p1 s1) as [[[t2 r2] p2] s2].
    unfold trace_of, result_of in *. cbn [fst snd] in *.
    destruct IH as [Hn2 Hall2]. rewrite Hname in Hall2.
    unfold pops, faults in *. rewrite !omap_app, !length_app.
    split; [lia | apply Forall_app; auto].
Qed.

End Coverage.

(** ** Runs that instantiate the hypotheses *)

Lemma acquireLock_owner_wrote_witness :
  let out := invoke Memory.serve acquireLock b (Memory.fresh 1500000000 []) in
  snd (result_of out) = None
  /\ exists now, head (trace_of out) = Some (ENow now) /\ 3 = lockVal b now
     /\ (ESetNX (lockKey b) 3 0 (Ok true) ∈ trace_of out
         \/ exists prev, EGetSet (lockKey b) 3 (Ok prev) ∈ trace_of out).
Proof.
  apply (acquireLock_owner_wrote Memory.serve b (Memory.fresh 1500000000 []) 3).
  reflexivity.
Defined.

Lemma lease_honoured_witness :
  let t := [ENow 1500000000; ESetNX "b_lock" 3 0 (Ok false); EGet "b_lock" (Ok "7")] in
  t = take 3 t /\ (@None Z, @None error) = (None, None).
Proof.
  intros t.
  eapply (lease_honoured Memory.serve b b (Memory.locked 1500000000 [] "7")
            t (None, None) _ _ 1500000000 5000000000 "7").
  - change (cadence b) with 1000000000. lia.
  - reflexivity.
  - reflexivity.
  - reflexivity.
  - reflexivity.
  - change (cadence b) with 1000000000. unfold Second. lia.
Defined.

Lemma lease_lapsed_taken_over_witness :
  let t := [ENow 2500000000; ESetNX "b_lock" 4 0 (Ok false);
            EGet "b_lock" (Ok "1"); EGetSet "b_lock" 4 (Ok "1")] in
  exists swap,
    t = take 3 t ++ [EGetSet (lockKey b) (lockVal b 2500000000) swap]
    /\ (swap = Ok "1" -> (Some 4, @None error) = (Some (lockVal b 2500000000), None)).
Proof.
  intros t.
  eapply (lease_lapsed_taken_over Memory.serve b
            {| bucketName := "b"; capacity := 3; cadence := 100000000; errors := [] |}
            (Memory.locked 2500000000 [] "1") t (Some 4, None) _ _
            2500000000 1000000000 "1").
  - cbn [cadence]. lia.
  - reflexivity.
  - reflexivity.
  - reflexivity.
  - cbn [cadence]. lia.
Defined.

Lemma short_lease_taken_over_at_once_witness :
  let fast := {| bucketName := "b"; capacity := 3; cadence := 100000000; errors := [] |} in
  let t := [ENow 1500000000; ESetNX "b_lock" 1 0 (Ok false);
            EGet "b_lock" (Ok "1"); EGetSet "b_lock" 1 (Ok "1")] in
  exists swap,
    t = take 3 t ++ [EGetSet (lockKey fast) (lockVal fast 1500000000) swap]
    /\ (swap = Ok "1" -> (Some 1, @None error) = (Some (lockVal fast 1500000000), None)).
Proof.
  intros fast t.
  eapply (short_lease_taken_over_at_once Memory.serve fast fast
            (Memory.locked 1500000000 [] "1") t (Some 1, None) _ _
            1500000000 1500000000 "1").
  - cbn [cadence fast]. unfold Second. lia.
  - reflexivity.
  - reflexivity.
  - reflexivity.
  - reflexivity.
  - reflexivity.
  - lia.
Defined.

Lemma fault_is_the_store_error_witness :
  let out := fillRun Memory.serve 3 Acquiring b (Memory.fresh 1500000000 [false; true]) in
  result_of out = Stopped
  /\ exists pre ev e,
       Some Memory.refused = Some e
       /\ trace_of out = pre ++ [ev; ESend (Some e)]
       /\ failure_of ev = Some e.
Proof.
  apply (fault_is_the_store_error Memory.serve 3 Acquiring b
           (Memory.fresh 1500000000 [false; true]) (Some Memory.refused)).
  reflexivity.
Defined.
